(** * onetab_dedupe: first-occurrence deduplication of OneTab export lines

    A shallow embedding of [onetab_dedupe.py].  Python strings are sequences
    of Unicode code points, the seen-URL [set()] is a finite set of such
    strings, and the [for] loop of [deduplicate] is a left fold of its body
    over the input list.  File access and console output of [main] are
    threaded through a small state-and-exception monad whose file-system
    primitives are parameters of the development. *)

From Stdlib Require Import NArith Ascii String.
From stdpp Require Import gmap strings list.

#[local] Set Warnings "-clear-no-such-hyp".

Local Open Scope N_scope.
Local Open Scope nat_scope.

(** ** Python [str] *)

Module PyStr.

(** A [str] is a list of code points. *)
Abbreviation char := N (only parsing).
Abbreviation str := (list N) (only parsing).

(** An ASCII literal as a [str]. *)
Definition py (s : string) : str :=
  map N_of_ascii (list_ascii_of_string s).

(** The line feed that terminates the lines a text file yields. *)
Definition LF : char := 10%N.

(** [ln s] is the literal [s] followed by its line feed. *)
Definition ln (s : string) : str := py s ++ [LF].

(** The separator of [split("|", 1)]. *)
Definition pipe : char := 124%N.

(** [str.isspace] on one code point: the characters that [str.strip()]
    without argument removes (bidirectional class WS, B or S, or
    category Zs). *)
Definition isspace (c : char) : bool :=
  ((9 <=? c) && (c <=? 13))%N
  || ((28 <=? c) && (c <=? 32))%N
  || (c =? 133)%N || (c =? 160)%N
  || (c =? 5760)%N
  || ((8192 <=? c) && (c <=? 8202))%N
  || (c =? 8232)%N || (c =? 8233)%N
  || (c =? 8239)%N || (c =? 8287)%N
  || (c =? 12288)%N.

(** [s.lstrip()]: drop the leading whitespace. *)
Fixpoint lstrip (s : str) : str :=
  match s with
  | [] => []
  | c :: s' => if isspace c then lstrip s' else s
  end.

(** [s.rstrip()]: drop the trailing whitespace. *)
Definition rstrip (s : str) : str := reverse (lstrip (reverse s)).

(** [s.strip()]: drop whitespace at both ends. *)
Definition strip (s : str) : str := rstrip (lstrip s).

(** Put [c] in front of the first part of a split. *)
Definition cons_head (c : char) (parts : list str) : list str :=
  match parts with
  | p :: ps => (c :: p) :: ps
  | [] => [[c]]
  end.

(** [s.split(sep, maxsplit)] for a one-character separator and a
    non-negative [maxsplit]: cut at the first [maxsplit] separators, from
    the left; the rest of the string is the last part. *)
Fixpoint split (sep : char) (maxsplit : nat) (s : str) : list str :=
  match s with
  | [] => [[]]
  | c :: s' =>
      match maxsplit with
      | O => [s]
      | S m =>
          if (c =? sep)%N then [] :: split sep m s'
          else cons_head c (split sep maxsplit s')
      end
  end.

(** [parts[0]].  Python raises [IndexError] on an empty list; [split]
    never returns one (lemma [split_lookup_0]), so the default is never
    taken. *)
Definition item0 (parts : list str) : str := default [] (parts !! 0).

(** The portion of [s] before its first [sep], all of [s] when it has
    none: what the specification calls the part before the first
    separator.  Compared with [split] in [item0_split]. *)
Fixpoint before_first (sep : char) (s : str) : str :=
  match s with
  | [] => []
  | c :: s' => if (c =? sep)%N then [] else c :: before_first sep s'
  end.

End PyStr.

Import PyStr.

(** ** The deduplicator *)

(** [rich.progress.track] yields the items of [sequence] unchanged, in
    order; the progress bar it draws is display only. *)
Definition track {A : Type} (sequence : list A) (description : string)
  : list A := sequence.

(** The URL key of a non-blank line:
    [data.strip().split("|", 1)[0].strip()]. *)
Definition url_key (data : str) : str :=
  strip (item0 (split pipe 1 (strip data))).

(** The two local variables the loop of [deduplicate] updates. *)
Record loop_state : Type := LoopState {
  url_set : gset str;
  output_list : list str
}.

(** [url_set = set(); output_list = []] *)
Definition initial : loop_state :=
  {| url_set := ∅; output_list := [] |}.

(** One iteration of the [for] loop on the line [data]. *)
Definition loop_body (st : loop_state) (data : str) : loop_state :=
  match strip data with
  | [] =>
      (* if not data.strip(): output_list.append(data); continue *)
      {| url_set := url_set st; output_list := output_list st ++ [data] |}
  | _ :: _ =>
      let url := url_key data in
      if bool_decide (url ∈ url_set st) then
        (* continue *)
        st
      else
        (* url_set.add(url); output_list.append(data) *)
        {| url_set := {[url]} ∪ url_set st;
           output_list := output_list st ++ [data] |}
  end.

(** [deduplicate(data_list)] *)
Definition deduplicate (data_list : list str) : list str :=
  output_list (foldl loop_body initial (track data_list "处理中...")).

(** The line at index [i] is kept when the iteration that visits it, in the
    state the loop has reached after the lines before it, appends it to
    [output_list]. *)
Definition kept (data_list : list str) (i : nat) : bool :=
  match data_list !! i with
  | Some data =>
      let st := foldl loop_body initial (take i data_list) in
      bool_decide (output_list (loop_body st data) = output_list st ++ [data])
  | None => false
  end.

(** The lines of [l] whose index, counted from [i], satisfies [keep], in
    order. *)
Fixpoint select_from (keep : nat → bool) (i : nat) (l : list str)
  : list str :=
  match l with
  | [] => []
  | d :: l' =>
      if keep i then d :: select_from keep (S i) l'
      else select_from keep (S i) l'
  end.

(** The loop of [deduplicate] started with [seen] already in [url_set] and
    nothing in [output_list]: the state the loop is in after a prefix of the
    input, up to the lines already appended. *)
Definition resume (seen : gset str) (l : list str) : loop_state :=
  foldl loop_body {| url_set := seen; output_list := [] |} l.

(** A line is blank when nothing is left of it after [strip]. *)
Definition blank (data : str) : Prop := strip data = [].

(** The keys of the non-blank lines of [l], in order. *)
Definition keys_of (l : list str) : list str :=
  url_key <$> filter (λ d, ¬ blank d) l.

(** A line with a ['|'] and only whitespace before the first one. *)
Definition blank_before_pipe (data : str) : Prop :=
  pipe ∈ data ∧ Forall (λ c, isspace c = true) (before_first pipe data).

(** ** The entry point and its effects *)

(** The exceptions that opening, decoding or encoding a file raises. *)
Inductive exn : Type :=
  | FileNotFoundError
  | PermissionError
  | UnicodeDecodeError
  | UnicodeEncodeError
  | OSError.

(** What the program does to the outside, in the order it does it. *)
Inductive event : Type :=
  | Print (msg : string)
  | Read (file_path : string)
  | Write (file_path : string) (data_list : list str).

(** The outcome of a call: a value, or an exception on its way up. *)
Inductive result (A : Type) : Type :=
  | Ok (a : A)
  | Raise (e : exn).
Arguments Ok {A} a.
Arguments Raise {A} e.

(** [argparse]'s namespace: [old_path] is required, [new_path] has
    [nargs="?"] and is [None] when left out. *)
Record arguments : Type := Namespace {
  old_path : string;
  new_path : option string
}.

Section Effects.
(** The file system is a parameter: [os_read fs path encoding] is what
    opening [path] with mode ["r"] and iterating it to the end gives, the
    decoded lines with their terminators or the exception raised on the
    way; [os_write fs path encoding lines] is what opening [path] with
    mode ["w"] and [writelines] leave behind, with the exception raised if
    any. *)
Context {FS : Type}.
Variable os_read : FS → string → string → exn + list str.
Variable os_write : FS → string → string → list str → FS * option exn.

(** The files and the events so far. *)
Record world : Type := World {
  fs : FS;
  trace : list event
}.

(** Computations that read and change the world and may raise. *)
Definition io (A : Type) : Type := world → result A * world.

Definition ret {A : Type} (a : A) : io A := λ w, (Ok a, w).

Definition bind {A B : Type} (m : io A) (k : A → io B) : io B :=
  λ w, match m w with
       | (Ok a, w') => k a w'
       | (Raise e, w') => (Raise e, w')
       end.

Definition emit (ev : event) (w : world) : world :=
  {| fs := fs w; trace := trace w ++ [ev] |}.

(** [print(msg)] *)
Definition print (msg : string) : io unit :=
  λ w, (Ok tt, emit (Print msg) w).

(** [with open(file=file_path, mode="r", encoding=encoding) as file],
    iterated to the end. *)
Definition open_r (file_path encoding : string) : io (list str) :=
  λ w, match os_read (fs w) file_path encoding with
       | inr file => (Ok file, emit (Read file_path) w)
       | inl e => (Raise e, emit (Read file_path) w)
       end.

(** [with open(file=file_path, mode="w", encoding=encoding) as file:
    file.writelines(data_list)] *)
Definition open_w (file_path encoding : string) (data_list : list str)
  : io unit :=
  λ w, let '(fs', r) := os_write (fs w) file_path encoding data_list in
       let w' := {| fs := fs'; trace := trace w ++ [Write file_path data_list] |} in
       match r with
       | None => (Ok tt, w')
       | Some e => (Raise e, w')
       end.

(** [x ← m; k] and [m;; k] are stdpp's notations for [bind]. *)
#[local] Instance io_ret : MRet io := @ret.
#[local] Instance io_bind : MBind io := λ A B k m, bind m k.

(** [read_file(file_path, encoding)] *)
Definition read_file (file_path encoding : string) : io (list str) :=
  file ← open_r file_path encoding;
  ret (foldl (λ data_list line, data_list ++ [line]) []
         (track file "读取文件中...")).

(** [write_file(data_list, file_path, encoding)] *)
Definition write_file (data_list : list str) (file_path encoding : string)
  : io unit :=
  open_w file_path encoding data_list;;
  print ("处理完成！去重后的文件已保存至: " +:+ file_path).

(** The notice of [main] when [new_path] is left out. *)
Definition overwrite_notice : string :=
  "提示: 导出路径为空, 将默认覆盖原文件".

(** [main()], after [parser.parse_args()] has returned [args]. *)
Definition main (args : arguments) : io unit :=
  let old_path := old_path args in
  new_path ←
    match new_path args with
    | None => print overwrite_notice;; ret old_path
    | Some p => ret p
    end;
  data_list ← read_file old_path "utf-8";
  let output_list := deduplicate data_list in
  write_file output_list new_path "utf-8".

End Effects.

Arguments world : clear implicits.
Arguments io : clear implicits.

(** ** A file system in memory, to run [main] on *)

Module MemFS.

(** The carriage return. *)
Definition CR : char := 13%N.

(** The lines a text file opened with mode ["r"] yields (universal
    newlines): a line ends after a line feed, a carriage return or a
    carriage return followed by a line feed, and each of these terminators
    comes back as one line feed. *)
Fixpoint lines_of (text : str) : list str :=
  match text with
  | [] => []
  | c :: t =>
      if (c =? LF)%N then [LF] :: lines_of t
      else if (c =? CR)%N then
        match t with
        | x :: _ => if (x =? LF)%N then lines_of t else [LF] :: lines_of t
        | [] => [[LF]]
        end
      else match lines_of t with
           | [] => [[c]]
           | l :: ls => (c :: l) :: ls
           end
  end.

(** Files by path, each the text it holds; a line feed is written as it
    is, as on a system whose line separator is the line feed. *)
Definition read (fs : gmap string (list N)) (file_path encoding : string)
  : exn + list str :=
  match fs !! file_path with
  | Some text => inr (lines_of text)
  | None => inl FileNotFoundError
  end.

Definition write (fs : gmap string (list N)) (file_path encoding : string)
  (data_list : list str) : gmap string (list N) * option exn :=
  (<[file_path := concat data_list]> fs, None).

End MemFS.

(** ** Sample inputs *)

Module Samples.

Definition bookmarks : list str :=
  [ ln "https://a.com | A"; ln "https://b.com | B";
    ln "https://a.com | A again"; ln ""; ln "https://b.com | B dup" ].

Definition untitled : list str :=
  [ ln "https://a.com/x"; ln "https://b.com"; ln "  https://a.com/x  " ].

Definition no_url : list str :=
  [ ln "https://a.com | A"; ln "   | Title"; ln " | Other"; ln "|" ].

Definition files : gmap string (list N) :=
  {[ "tabs.txt" := concat bookmarks ]}.

End Samples.

#[global] Instance blank_dec (d : str) : Decision (blank d).
Proof. unfold blank. apply _. Defined.

#[global] Instance blank_before_pipe_dec (d : str) :
  Decision (blank_before_pipe d).
Proof. unfold blank_before_pipe. apply _. Defined.

(** ** Sanity checks on concrete inputs *)

Example strip_example : strip (py "  a b  ") = py "a b".
Proof. reflexivity. Qed.

Example split_example :
  split pipe 1 (py "a|b|c") = [py "a"; py "b|c"].
Proof. reflexivity. Qed.

Example split_no_sep : split pipe 1 (py "abc") = [py "abc"].
Proof. reflexivity. Qed.

Example split_empty : split pipe 1 (py "") = [py ""].
Proof. reflexivity. Qed.

Example scenario :
  deduplicate
    [ ln "https://a.com | A"; ln "https://b.com | B";
      ln "https://a.com | A again"; ln ""; ln "https://b.com | B dup" ]
  = [ ln "https://a.com | A"; ln "https://b.com | B"; ln "" ].
Proof. vm_compute. reflexivity. Qed.

Example scenario_empty : deduplicate [] = [].
Proof. reflexivity. Qed.

(** ** Facts about [strip] and [split] *)

#[local] Arguments isspace : simpl never.

Section StringFacts.
Implicit Types (c : char) (s t : str).

Lemma lstrip_app_nonspace s c t :
  isspace c = false → lstrip (s ++ c :: t) = lstrip s ++ c :: t.
Proof.
  intros Hc. induction s as [|x s IH]; simpl.
  - by rewrite Hc.
  - by destruct (isspace x).
Qed.

Lemma lstrip_spaces s t :
  Forall (λ c, isspace c = true) s → lstrip (s ++ t) = lstrip t.
Proof. induction 1 as [|x s Hx _ IH]; simpl; [done | by rewrite Hx]. Qed.

Lemma lstrip_head s c t : lstrip s = c :: t → isspace c = false.
Proof.
  induction s as [|x s IH]; simpl; [done |].
  destruct (isspace x) eqn:Hx; [done | by intros [= <- _]].
Qed.

Lemma lstrip_idemp s : lstrip (lstrip s) = lstrip s.
Proof.
  destruct (lstrip s) as [|c t] eqn:E; [done |].
  simpl. by rewrite (lstrip_head _ _ _ E).
Qed.

Lemma lstrip_elem c s : c ∈ lstrip s → c ∈ s.
Proof.
  induction s as [|x s IH]; simpl; [done |].
  destruct (isspace x); [| done]. intros ?. right. auto.
Qed.

Lemma rstrip_nil : rstrip [] = [].
Proof. reflexivity. Qed.

Lemma rstrip_cons_nonspace c s :
  isspace c = false → rstrip (c :: s) = c :: rstrip s.
Proof.
  intros Hc. unfold rstrip. rewrite reverse_cons.
  rewrite lstrip_app_nonspace by done. by rewrite reverse_snoc.
Qed.

Lemma rstrip_idemp s : rstrip (rstrip s) = rstrip s.
Proof. unfold rstrip. by rewrite reverse_involutive, lstrip_idemp. Qed.

Lemma rstrip_elem c s : c ∈ rstrip s → c ∈ s.
Proof.
  unfold rstrip. rewrite elem_of_reverse. intros H%lstrip_elem.
  by apply elem_of_reverse.
Qed.

Lemma lstrip_rstrip_lstrip s : lstrip (rstrip (lstrip s)) = rstrip (lstrip s).
Proof.
  destruct (lstrip s) as [|c t] eqn:E; [done |].
  pose proof (lstrip_head _ _ _ E) as Hc.
  rewrite rstrip_cons_nonspace by done. simpl. by rewrite Hc.
Qed.

(** Stripping a stripped string changes nothing. *)
Lemma strip_idemp s : strip (strip s) = strip s.
Proof. unfold strip. by rewrite lstrip_rstrip_lstrip, rstrip_idemp. Qed.

Lemma strip_elem c s : c ∈ strip s → c ∈ s.
Proof. unfold strip. intros H%rstrip_elem. by apply lstrip_elem. Qed.

Lemma strip_nil : strip [] = [].
Proof. reflexivity. Qed.

(** A stripped string is empty or starts with a non-space character. *)
Lemma strip_head s c t : strip s = c :: t → isspace c = false.
Proof.
  unfold strip. destruct (lstrip s) as [|x u] eqn:E; [done |].
  pose proof (lstrip_head _ _ _ E) as Hx.
  rewrite rstrip_cons_nonspace by done. by intros [= <- _].
Qed.

Lemma pipe_nonspace : isspace pipe = false.
Proof. reflexivity. Qed.

(** [split] never returns the empty list, so [parts[0]] is defined. *)
Lemma split_lookup_0 sep n s : is_Some (split sep n s !! 0).
Proof.
  revert n. induction s as [|c s IH]; intros n; simpl; [by eexists |].
  destruct n as [|m]; [by eexists |].
  destruct (c =? sep)%N; [by eexists |].
  destruct (IH (S m)) as [p Hp].
  destruct (split sep (S m) s); [done |]. by eexists.
Qed.

End StringFacts.

Section SplitFacts.
Implicit Types (c sep : char) (s t : str).

Lemma item0_cons_head c (parts : list str) :
  is_Some (parts !! 0) → item0 (cons_head c parts) = c :: item0 parts.
Proof. destruct parts; [by intros [? ?] | done]. Qed.

(** The first part of a split with at least one cut allowed is the portion
    before the first separator. *)
Lemma item0_split sep n s :
  item0 (split sep (S n) s) = before_first sep s.
Proof.
  induction s as [|c s IH]; simpl; [done |].
  destruct (c =? sep)%N; [done |].
  rewrite item0_cons_head by apply split_lookup_0. by rewrite IH.
Qed.

Lemma before_first_notin sep s : sep ∉ s → before_first sep s = s.
Proof.
  induction s as [|c s IH]; simpl; [done |].
  intros [Hne Hs]%not_elem_of_cons.
  destruct (N.eqb_spec c sep); [congruence | by rewrite IH].
Qed.

Lemma before_first_app sep s t :
  sep ∉ s → before_first sep (s ++ sep :: t) = s.
Proof.
  induction s as [|c s IH]; simpl.
  - by rewrite N.eqb_refl.
  - intros [Hne Hs]%not_elem_of_cons.
    destruct (N.eqb_spec c sep); [congruence | by rewrite IH].
Qed.

Lemma before_first_decomp sep s :
  sep ∈ s → ∃ t, s = before_first sep s ++ sep :: t.
Proof.
  induction s as [|c s IH]; simpl; [by intros ?%elem_of_nil |].
  destruct (N.eqb_spec c sep) as [-> | Hne].
  - by exists s.
  - intros [? | Hs]%elem_of_cons; [congruence |].
    destruct (IH Hs) as [t Ht]. exists t. simpl. congruence.
Qed.

Lemma lstrip_decomp s :
  ∃ ws, s = ws ++ lstrip s ∧ Forall (λ c, isspace c = true) ws.
Proof.
  induction s as [|c s (ws & Hs & Hws)]; simpl; [by exists [] |].
  destruct (isspace c) eqn:Hc.
  - exists (c :: ws). split; [simpl; congruence | by constructor].
  - by exists [].
Qed.

Lemma spaces_no_pipe s : Forall (λ c, isspace c = true) s → pipe ∉ s.
Proof.
  intros Hs Hin. rewrite Forall_forall in Hs.
  specialize (Hs _ Hin). by rewrite pipe_nonspace in Hs.
Qed.

(** The key as the specification words it. *)
Lemma url_key_before_first (data : str) :
  url_key data = strip (before_first pipe (strip data)).
Proof. unfold url_key. by rewrite item0_split. Qed.

Lemma url_key_no_pipe (data : str) : pipe ∉ data → url_key data = strip data.
Proof.
  intros Hp. rewrite url_key_before_first.
  rewrite before_first_notin; [apply strip_idemp |].
  intros ?%strip_elem. done.
Qed.

Lemma strip_blank_before_pipe (data : str) :
  blank_before_pipe data → ∃ t, strip data = pipe :: t.
Proof.
  intros [Hin Hws]. destruct (before_first_decomp _ _ Hin) as [t Ht].
  exists (rstrip t). rewrite Ht. unfold strip.
  rewrite lstrip_spaces by done.
  change (lstrip (pipe :: t)) with (pipe :: t).
  by rewrite rstrip_cons_nonspace.
Qed.

Lemma url_key_blank_before_pipe (data : str) :
  blank_before_pipe data → ¬ blank data ∧ url_key data = [].
Proof.
  intros [t Ht]%strip_blank_before_pipe. unfold blank. split.
  - by rewrite Ht.
  - rewrite url_key_before_first, Ht. reflexivity.
Qed.

(** Only such lines have the empty key. *)
Lemma empty_key_blank_before_pipe (data : str) :
  ¬ blank data → url_key data = [] → blank_before_pipe data.
Proof.
  unfold blank. intros Hnb Hk. rewrite url_key_before_first in Hk.
  destruct (lstrip_decomp data) as (ws & Hd & Hws).
  unfold strip in *. destruct (lstrip data) as [|c u] eqn:E; [done |].
  pose proof (lstrip_head _ _ _ E) as Hc.
  rewrite rstrip_cons_nonspace in Hk by done. simpl in Hk.
  destruct (N.eqb_spec c pipe) as [-> | Hne].
  - split.
    + rewrite Hd. apply elem_of_app. right. by left.
    + rewrite Hd, before_first_app by by apply spaces_no_pipe. done.
  - simpl in Hk. rewrite Hc in Hk.
    by rewrite rstrip_cons_nonspace in Hk.
Qed.

End SplitFacts.

(** ** The loop *)

Section LoopFacts.
Implicit Types (st : loop_state) (S : gset str) (d data : str)
  (l : list str).

Local Abbreviation out S l := (output_list (resume S l)).
Local Abbreviation seen S l := (url_set (resume S l)).

(** The three ways through the loop body. *)
Lemma loop_body_cases st d :
  (blank d ∧
   loop_body st d =
     {| url_set := url_set st; output_list := output_list st ++ [d] |})
  ∨ (¬ blank d ∧ url_key d ∈ url_set st ∧ loop_body st d = st)
  ∨ (¬ blank d ∧ (url_key d ∉ url_set st) ∧
     loop_body st d =
       {| url_set := {[url_key d]} ∪ url_set st;
          output_list := output_list st ++ [d] |}).
Proof.
  unfold loop_body, blank. destruct (strip d) as [|c t] eqn:E.
  - by left.
  - right. case_bool_decide; [left | right]; done.
Qed.

(** The lines appended so far play no part in what the loop does next. *)
Lemma foldl_loop_body st l :
  foldl loop_body st l =
    {| url_set := seen (url_set st) l;
       output_list := output_list st ++ out (url_set st) l |}.
Proof.
  revert st. induction l as [|d l IH]; intros [S o]; simpl.
  - by rewrite app_nil_r.
  - unfold resume. simpl.
    rewrite (IH (loop_body _ d)), (IH (loop_body {| url_set := S |} d)).
    destruct (loop_body_cases {| url_set := S; output_list := o |} d)
      as [(? & ->) | [(? & ? & ->) | (? & ? & ->)]];
    destruct (loop_body_cases {| url_set := S; output_list := [] |} d)
      as [(? & ->) | [(? & ? & ->) | (? & ? & ->)]];
    simpl in *; try done; by rewrite <- ?app_assoc.
Qed.

Lemma resume_cases S d l :
  (blank d ∧
   resume S (d :: l) =
     {| url_set := seen S l; output_list := d :: out S l |})
  ∨ (¬ blank d ∧ url_key d ∈ S ∧ resume S (d :: l) = resume S l)
  ∨ (¬ blank d ∧ (url_key d ∉ S) ∧
     resume S (d :: l) =
       {| url_set := seen ({[url_key d]} ∪ S) l;
          output_list := d :: out ({[url_key d]} ∪ S) l |}).
Proof.
  change (resume S (d :: l)) with
    (foldl loop_body (loop_body {| url_set := S; output_list := [] |} d) l).
  rewrite foldl_loop_body.
  destruct (loop_body_cases {| url_set := S; output_list := [] |} d)
    as [(? & ->) | [(? & ? & ->) | (? & ? & ->)]]; simpl.
  - by left.
  - right; left. split_and!; [done.. |]. by destruct (resume S l).
  - by right; right.
Qed.

Lemma deduplicate_resume l : deduplicate l = out ∅ l.
Proof. reflexivity. Qed.

Lemma resume_app S l1 l2 :
  resume S (l1 ++ l2) =
    {| url_set := seen (seen S l1) l2;
       output_list := out S l1 ++ out (seen S l1) l2 |}.
Proof. unfold resume at 1. by rewrite foldl_app, foldl_loop_body. Qed.

End LoopFacts.

Section OutputFacts.
Implicit Types (st : loop_state) (S : gset str) (d data k : str)
  (l : list str).

Local Abbreviation out S l := (output_list (resume S l)).
Local Abbreviation seen S l := (url_set (resume S l)).

Ltac resume_cases S d l :=
  destruct (resume_cases S d l)
    as [(? & ->) | [(? & ? & ->) | (? & ? & ->)]]; simpl.

Lemma out_sublist S l : out S l `sublist_of` l.
Proof.
  revert S. induction l as [|d l IH]; intros S; [done |].
  resume_cases S d l.
  - by apply sublist_skip.
  - by apply sublist_cons.
  - by apply sublist_skip.
Qed.

Lemma out_idemp S l : out S (out S l) = out S l.
Proof.
  revert S. induction l as [|d l IH]; intros S; [done |].
  resume_cases S d l; [| apply IH |].
  - resume_cases S d (out S l); [by rewrite IH | done..].
  - set (S' := {[url_key d]} ∪ S).
    resume_cases S d (out S' l); [done.. |]. fold S'. by rewrite IH.
Qed.

Lemma keys_of_cons_blank d l : blank d → keys_of (d :: l) = keys_of l.
Proof. intros Hb. unfold keys_of. rewrite filter_cons_False; auto. Qed.

Lemma keys_of_cons_nonblank d l :
  ¬ blank d → keys_of (d :: l) = url_key d :: keys_of l.
Proof. intros Hb. unfold keys_of. by rewrite filter_cons_True. Qed.

Lemma elem_of_keys_of k l :
  k ∈ keys_of l ↔ ∃ j d, l !! j = Some d ∧ ¬ blank d ∧ url_key d = k.
Proof.
  unfold keys_of. rewrite list_elem_of_fmap. split.
  - intros (d & -> & [Hnb (j & Hj)%list_elem_of_lookup]%list_elem_of_filter).
    by exists j, d.
  - intros (j & d & Hj & Hnb & <-). exists d. split; [done |].
    apply list_elem_of_filter. split; [done |].
    apply list_elem_of_lookup. by exists j.
Qed.

(** The set holds what it held at the start and the keys of the
    non-blank lines visited. *)
Lemma seen_spec S l k : k ∈ seen S l ↔ k ∈ S ∨ k ∈ keys_of l.
Proof.
  revert S. induction l as [|d l IH]; intros S.
  - simpl. unfold keys_of. simpl. set_solver.
  - resume_cases S d l.
    + rewrite keys_of_cons_blank by done. apply IH.
    + rewrite keys_of_cons_nonblank by done. rewrite IH. set_solver.
    + rewrite keys_of_cons_nonblank by done. rewrite IH. set_solver.
Qed.

(** The keys of the kept non-blank lines are new, pairwise distinct, and
    exactly what the loop adds to the set. *)
Lemma out_keys S l :
  NoDup (keys_of (out S l))
  ∧ (∀ k, k ∈ keys_of (out S l) → k ∉ S)
  ∧ seen S l = list_to_set (keys_of (out S l)) ∪ S.
Proof.
  revert S. induction l as [|d l IH]; intros S.
  - simpl. unfold keys_of. simpl. split_and!; [constructor | | set_solver].
    intros k ?%elem_of_nil. done.
  - resume_cases S d l.
    + rewrite keys_of_cons_blank by done. apply IH.
    + apply IH.
    + rewrite keys_of_cons_nonblank by done.
      destruct (IH ({[url_key d]} ∪ S)) as (Hnd & Hnew & Hseen).
      split_and!.
      * apply NoDup_cons. split; [| done].
        intros Hin%Hnew. set_solver.
      * intros k [-> | Hin%Hnew]%elem_of_cons; [done | set_solver].
      * rewrite Hseen, list_to_set_cons. set_solver.
Qed.

(** Distinct keys, by position. *)
Lemma keys_of_NoDup_lookup l i j di dj :
  NoDup (keys_of l) →
  l !! i = Some di → l !! j = Some dj →
  ¬ blank di → ¬ blank dj → url_key di = url_key dj → i = j.
Proof.
  revert i j. induction l as [|d l IH]; intros i j Hnd Hi Hj Hbi Hbj Hk;
    [done |].
  assert (Htail : NoDup (keys_of l)).
  { destruct (decide (blank d)).
    - by rewrite keys_of_cons_blank in Hnd.
    - rewrite keys_of_cons_nonblank in Hnd by done.
      by apply NoDup_cons in Hnd as [_ ?]. }
  assert (Hhead : ∀ n d', (d :: l) !! 0 = Some d → ¬ blank d →
            l !! n = Some d' → ¬ blank d' → url_key d ≠ url_key d').
  { intros n d' _ Hnb Hn Hnb' Heq.
    rewrite keys_of_cons_nonblank in Hnd by done.
    apply NoDup_cons in Hnd as [Hnotin _]. apply Hnotin.
    apply elem_of_keys_of. by exists n, d'. }
  destruct i as [|i], j as [|j]; simpl in *; [done | | |].
  - injection Hi as ->. by destruct (Hhead j dj).
  - injection Hj as ->. by destruct (Hhead i di).
  - f_equal. by apply IH.
Qed.

Lemma foldl_initial l : foldl loop_body initial l = resume ∅ l.
Proof. reflexivity. Qed.

(** A line is kept when it is blank or its key is on no non-blank line
    before it. *)
Lemma kept_decide l i d :
  l !! i = Some d →
  kept l i = bool_decide (blank d ∨ url_key d ∉ keys_of (take i l)).
Proof.
  intros Hi. unfold kept. rewrite Hi. cbv zeta. rewrite foldl_initial.
  assert (Hseen : ∀ k, k ∈ seen ∅ (take i l) ↔ k ∈ keys_of (take i l)).
  { intros k. rewrite seen_spec. set_solver. }
  destruct (loop_body_cases (resume ∅ (take i l)) d)
    as [(? & ->) | [(? & Hin & ->) | (? & Hout & ->)]]; simpl.
  - rewrite !bool_decide_eq_true_2; auto.
  - rewrite !bool_decide_eq_false_2; [done | |].
    + rewrite <- Hseen. tauto.
    + intros Heq%(f_equal length). rewrite length_app in Heq.
      simpl in Heq. lia.
  - rewrite !bool_decide_eq_true_2; [done | | done].
    right. by rewrite <- Hseen.
Qed.

Lemma kept_true_iff l i d :
  l !! i = Some d →
  kept l i = true ↔
    blank d ∨
    ∀ j d', j < i → l !! j = Some d' → ¬ blank d' →
            url_key d' ≠ url_key d.
Proof.
  intros Hi. rewrite (kept_decide _ _ _ Hi), bool_decide_eq_true.
  rewrite elem_of_keys_of. split.
  - intros [? | Hno]; [by left | right].
    intros j d' Hj Hj' Hnb Heq. apply Hno. exists j, d'.
    rewrite lookup_take_Some. done.
  - intros [? | Hno]; [by left | right].
    intros (j & d' & [Hj' Hj]%lookup_take_Some & Hnb & Heq).
    by apply (Hno j d').
Qed.

(** After the first non-blank line with some key, no non-blank line with
    that key is kept. *)
Lemma kept_later_false l i1 i2 d1 d2 :
  i1 < i2 → l !! i1 = Some d1 → l !! i2 = Some d2 →
  ¬ blank d1 → ¬ blank d2 → url_key d2 = url_key d1 →
  kept l i2 = false.
Proof.
  intros Hlt H1 H2 Hb1 Hb2 Heq.
  apply not_true_is_false. rewrite (kept_true_iff _ _ _ H2).
  intros [? | Hno]; [done |]. by apply (Hno i1 d1).
Qed.

Lemma seen_snoc S l d :
  seen S (l ++ [d]) =
    url_set (loop_body {| url_set := seen S l; output_list := [] |} d).
Proof. by rewrite resume_app. Qed.

(** The output is the input lines that are kept, in the input's order. *)
Lemma out_select p l :
  out (seen ∅ p) l = select_from (kept (p ++ l)) (length p) l.
Proof.
  revert p. induction l as [|d l IH]; intros p; [done |].
  assert (Hd : (p ++ d :: l) !! length p = Some d)
    by by apply list_lookup_middle.
  specialize (IH (p ++ [d])).
  rewrite <- app_assoc, length_app, Nat.add_1_r in IH. simpl in IH.
  rewrite seen_snoc in IH.
  assert (Hseen : ∀ k, k ∈ seen ∅ p ↔ k ∈ keys_of p).
  { intros k. rewrite seen_spec. set_solver. }
  simpl. rewrite (kept_decide _ _ _ Hd), take_app_length.
  destruct (loop_body_cases {| url_set := seen ∅ p; output_list := [] |} d)
    as [(? & Hlb) | [(? & Hin & Hlb) | (? & Hout & Hlb)]];
    rewrite Hlb in IH; simpl in *;
    resume_cases (seen ∅ p) d l; try done.
  - rewrite bool_decide_eq_true_2 by auto. by rewrite IH.
  - rewrite bool_decide_eq_false_2; [done |].
    rewrite <- Hseen. tauto.
  - rewrite bool_decide_eq_true_2; [by rewrite IH |].
    right. by rewrite <- Hseen.
Qed.

Lemma deduplicate_select l :
  deduplicate l = select_from (kept l) 0 l.
Proof. apply (out_select [] l). Qed.

(** The appending loop of [read_file] returns the lines as they came. *)
Lemma foldl_snoc_id {A : Type} (acc xs : list A) :
  foldl (λ data_list line, data_list ++ [line]) acc xs = acc ++ xs.
Proof.
  revert acc. induction xs as [|x xs IH]; intros acc; simpl.
  - by rewrite app_nil_r.
  - by rewrite IH, <- app_assoc.
Qed.

End OutputFacts.

(** ** The properties of [deduplicate] *)

Section Deduplicate.
Implicit Types (st : loop_state) (d data : str) (l data_list : list str).

(** C1.  First-occurrence rule: when [d1], at index [i1], is the first
    non-blank line of the input with its key, the line at [i1] is kept and
    every later non-blank line with that key is discarded; the output is
    the kept lines.  Keys are compared as sequences of code points, so
    keys that differ in case only are different keys. *)
Theorem first_occurrence_rule data_list i1 d1 :
  data_list !! i1 = Some d1 →
  ¬ blank d1 →
  (∀ j d, j < i1 → data_list !! j = Some d → ¬ blank d →
          url_key d ≠ url_key d1) →
  deduplicate data_list = select_from (kept data_list) 0 data_list
  ∧ kept data_list i1 = true
  ∧ (∀ i2 d2, i1 < i2 → data_list !! i2 = Some d2 → ¬ blank d2 →
              url_key d2 = url_key d1 → kept data_list i2 = false)
  ∧ deduplicate [py "HTTP://A.COM | t"; py "http://a.com | t"]
    = [py "HTTP://A.COM | t"; py "http://a.com | t"].
Proof.
  intros H1 Hnb Hfirst. split_and!.
  - apply deduplicate_select.
  - apply (kept_true_iff _ _ _ H1). by right.
  - intros i2 d2 Hlt H2 Hnb2 Heq. by apply (kept_later_false _ i1 i2 d1 d2).
  - vm_compute. reflexivity.
Qed.

(** C2.  Order preservation: the output of [deduplicate] is a subsequence
    of its input, so no line is changed, added or moved, and it is not
    longer than the input. *)
Theorem deduplicate_subsequence data_list :
  deduplicate data_list `sublist_of` data_list
  ∧ length (deduplicate data_list) ≤ length data_list.
Proof.
  pose proof (out_sublist ∅ data_list) as Hsub.
  split; [done | by apply sublist_length].
Qed.

(** C3.  Blank-line preservation: a line that is empty after [strip] is
    kept where it stands, whatever the state of the loop; the iteration on
    it appends the line and leaves [url_set] as it was, and taking the line
    out of the input takes just that line out of the output. *)
Theorem blank_line_kept data_list i d :
  data_list !! i = Some d →
  blank d →
  kept data_list i = true
  ∧ deduplicate data_list = select_from (kept data_list) 0 data_list
  ∧ (∀ st, loop_body st d =
           {| url_set := url_set st; output_list := output_list st ++ [d] |})
  ∧ (∃ rest,
       deduplicate data_list = deduplicate (take i data_list) ++ d :: rest
       ∧ deduplicate (take i data_list ++ drop (S i) data_list)
         = deduplicate (take i data_list) ++ rest).
Proof.
  intros Hi Hb. split_and!.
  - apply (kept_true_iff _ _ _ Hi). by left.
  - apply deduplicate_select.
  - intros st. by destruct (loop_body_cases st d)
      as [(? & ->) | [(? & ? & ->) | (? & ? & ->)]].
  - exists (output_list (resume (url_set (resume ∅ (take i data_list)))
                           (drop (S i) data_list))).
    rewrite <- (take_drop_middle _ _ _ Hi) at 1.
    rewrite !deduplicate_resume, !resume_app. simpl. split; [| done].
    by destruct (resume_cases (url_set (resume ∅ (take i data_list))) d
                   (drop (S i) data_list))
      as [(? & ->) | [(? & ? & ->) | (? & ? & ->)]].
Qed.

(** C4.  Key extraction: the key is the stripped line cut before its first
    ['|'] and stripped again; what follows the first ['|'], further ['|']
    included, plays no part; this is the key the loop looks up and adds on
    a non-blank line; and ["https://a.com/x | Title | extra"] has the key
    ["https://a.com/x"]. *)
Theorem key_extraction :
  (∀ data, url_key data = strip (before_first pipe (strip data)))
  ∧ (∀ s t : str, pipe ∉ s → before_first pipe (s ++ pipe :: t) = s)
  ∧ (∀ st data, ¬ blank data →
       loop_body st data =
         if bool_decide (strip (before_first pipe (strip data)) ∈ url_set st)
         then st
         else {| url_set :=
                   {[strip (before_first pipe (strip data))]} ∪ url_set st;
                 output_list := output_list st ++ [data] |})
  ∧ url_key (py "https://a.com/x | Title | extra") = py "https://a.com/x".
Proof.
  split_and!.
  - apply url_key_before_first.
  - intros s t. apply before_first_app.
  - intros st data Hnb. rewrite <- url_key_before_first.
    unfold loop_body. unfold blank in Hnb.
    by destruct (strip data).
  - vm_compute. reflexivity.
Qed.

(** C5.  A non-blank line without ['|'] has its whole stripped content as
    key, so two such lines have the same key exactly when their stripped
    contents are equal, and the later of two such lines with equal
    stripped contents is discarded. *)
Theorem url_only_line d :
  ¬ blank d →
  pipe ∉ d →
  url_key d = strip d
  ∧ (∀ d', ¬ blank d' → pipe ∉ d' →
           (url_key d = url_key d' ↔ strip d = strip d'))
  ∧ (∀ data_list i1 i2 d', i1 < i2 →
       data_list !! i1 = Some d → data_list !! i2 = Some d' →
       ¬ blank d' → pipe ∉ d' → strip d' = strip d →
       kept data_list i2 = false).
Proof.
  intros Hnb Hp. split_and!.
  - by apply url_key_no_pipe.
  - intros d' _ Hp'. by rewrite !url_key_no_pipe.
  - intros data_list i1 i2 d' Hlt H1 H2 Hnb' Hp' Heq.
    apply (kept_later_false _ i1 i2 d d'); try done.
    by rewrite !url_key_no_pipe.
Qed.

(** C6.  Idempotence: [deduplicate(deduplicate(x)) == deduplicate(x)]. *)
Theorem deduplicate_idempotent x :
  deduplicate (deduplicate x) = deduplicate x.
Proof. rewrite !deduplicate_resume. apply out_idemp. Qed.

(** C8.  A line with only whitespace before its first ['|'] is not blank
    and has the empty string as key; the first such line of the input is
    kept and every later one is discarded as its duplicate: the output of
    [deduplicate] is the kept lines, it holds the first such line right
    after the output for the lines before it, and no such line after
    that. *)
Theorem empty_key_collapse data_list i1 d1 :
  data_list !! i1 = Some d1 →
  blank_before_pipe d1 →
  (∀ j d, j < i1 → data_list !! j = Some d → ¬ blank_before_pipe d) →
  ¬ blank d1
  ∧ url_key d1 = []
  ∧ kept data_list i1 = true
  ∧ (∀ i2 d2, i1 < i2 → data_list !! i2 = Some d2 →
              blank_before_pipe d2 →
              url_key d2 = [] ∧ kept data_list i2 = false)
  ∧ url_key (py "   | Title") = py ""
  ∧ deduplicate data_list = select_from (kept data_list) 0 data_list
  ∧ (∃ rest,
       deduplicate data_list = deduplicate (take i1 data_list) ++ d1 :: rest
       ∧ ∀ d, d ∈ rest → ¬ blank_before_pipe d).
Proof.
  intros H1 Hbp Hfirst.
  destruct (url_key_blank_before_pipe _ Hbp) as [Hnb Hk].
  split_and!; [done | done | | | by vm_compute | apply deduplicate_select |].
  - apply (kept_true_iff _ _ _ H1). right.
    intros j d Hj Hd Hnbd Heq. apply (Hfirst j d Hj Hd).
    apply empty_key_blank_before_pipe; congruence.
  - intros i2 d2 Hlt H2 Hbp2.
    destruct (url_key_blank_before_pipe _ Hbp2) as [Hnb2 Hk2].
    split; [done |].
    apply (kept_later_false _ i1 i2 d1 d2); congruence.
  - set (p := take i1 data_list). set (q := drop (S i1) data_list).
    set (seen_p := url_set (resume ∅ p)).
    exists (output_list (resume ({[url_key d1]} ∪ seen_p) q)).
    rewrite <- (take_drop_middle _ _ _ H1) at 1. fold p q.
    rewrite !deduplicate_resume, resume_app. fold seen_p.
    destruct (resume_cases seen_p d1 q)
      as [(? & ->) | [(? & Hin & ->) | (? & ? & ->)]]; simpl.
    + done.
    + exfalso. apply seen_spec in Hin as [?%elem_of_empty | Hin]; [done |].
      apply elem_of_keys_of in Hin
        as (j & d & [Hd Hj]%lookup_take_Some & Hnbd & Heq).
      apply (Hfirst j d Hj Hd).
      apply empty_key_blank_before_pipe; congruence.
    + split; [done |]. intros d [n Hn]%list_elem_of_lookup Hbpd.
      destruct (url_key_blank_before_pipe _ Hbpd) as [Hnbd Hkd].
      destruct (out_keys ({[url_key d1]} ∪ seen_p) q) as (_ & Hnew & _).
      apply (Hnew (url_key d)).
      * apply elem_of_keys_of. by exists n, d.
      * rewrite Hkd, <- Hk. set_solver.
Qed.

(** C10.  In the output of [deduplicate] the keys of the non-blank lines
    are pairwise distinct; the set the loop ends with holds exactly these
    keys; an iteration never takes a key out of the set, and on a
    non-blank line it adds the key exactly when it appends the line. *)
Theorem kept_keys_distinct data_list :
  NoDup (keys_of (deduplicate data_list))
  ∧ (∀ i j di dj,
       deduplicate data_list !! i = Some di →
       deduplicate data_list !! j = Some dj →
       ¬ blank di → ¬ blank dj → url_key di = url_key dj → i = j)
  ∧ url_set (foldl loop_body initial data_list)
    = list_to_set (keys_of (deduplicate data_list))
  ∧ (∀ st d, url_set st ⊆ url_set (loop_body st d))
  ∧ (∀ st d, ¬ blank d →
       (url_key d ∈ url_set st ∧ loop_body st d = st)
       ∨ ((url_key d ∉ url_set st)
          ∧ loop_body st d =
              {| url_set := {[url_key d]} ∪ url_set st;
                 output_list := output_list st ++ [d] |})).
Proof.
  destruct (out_keys ∅ data_list) as (Hnd & _ & Hseen).
  rewrite deduplicate_resume. split_and!.
  - done.
  - intros i j di dj. by apply keys_of_NoDup_lookup.
  - rewrite foldl_initial, Hseen. set_solver.
  - intros st d. destruct (loop_body_cases st d)
      as [(? & ->) | [(? & ? & ->) | (? & ? & ->)]]; simpl; set_solver.
  - intros st d Hnb. destruct (loop_body_cases st d)
      as [(? & ->) | [(? & ? & ->) | (? & ? & ->)]]; [done | by left | by right].
Qed.

End Deduplicate.

(** ** The properties of [main] *)

Section Main.
Context {FS : Type}.
Variable os_read : FS → string → string → exn + list str.
Variable os_write : FS → string → string → list str → FS * option exn.

Local Abbreviation run args w := (main os_read os_write args w).

Lemma read_file_unfold file_path encoding (w : world FS) :
  read_file os_read file_path encoding w =
    match os_read (fs w) file_path encoding with
    | inr file => (Ok file, emit (Read file_path) w)
    | inl e => (Raise e, emit (Read file_path) w)
    end.
Proof.
  unfold read_file, mbind, io_bind, bind, open_r, ret.
  destruct (os_read (fs w) file_path encoding); [done |].
  unfold track. by rewrite foldl_snoc_id.
Qed.

(** [main] with a destination given: read, deduplicate, write. *)
Lemma main_explicit old new (w : world FS) :
  run {| old_path := old; new_path := Some new |} w =
    match os_read (fs w) old "utf-8" with
    | inr data_list =>
        write_file os_write (deduplicate data_list) new "utf-8"
          (emit (Read old) w)
    | inl e => (Raise e, emit (Read old) w)
    end.
Proof.
  unfold main, mbind, io_bind, bind. simpl.
  rewrite read_file_unfold. by destruct (os_read (fs w) old "utf-8").
Qed.

Lemma main_default old (w : world FS) :
  run {| old_path := old; new_path := None |} w =
    run {| old_path := old; new_path := Some old |}
      (emit (Print overwrite_notice) w).
Proof. reflexivity. Qed.

Lemma write_file_unfold data_list file_path encoding (w : world FS) :
  write_file os_write data_list file_path encoding w =
    let w' := {| fs := (os_write (fs w) file_path encoding data_list).1;
                 trace := trace w ++ [Write file_path data_list] |} in
    match (os_write (fs w) file_path encoding data_list).2 with
    | None =>
        (Ok tt,
         emit (Print ("处理完成！去重后的文件已保存至: " +:+ file_path)) w')
    | Some e => (Raise e, w')
    end.
Proof.
  unfold write_file, mbind, io_bind, bind, open_w, print.
  by destruct (os_write (fs w) file_path encoding data_list) as [fs' [e|]].
Qed.

(** C7.  Without [new_path], [main] prints the overwrite notice first and
    then runs as if the destination were the source path: when the source
    can be read, the deduplicated lines are written to the source path
    itself. *)
Theorem main_default_in_place old (w : world FS) :
  run {| old_path := old; new_path := None |} w =
    run {| old_path := old; new_path := Some old |}
      (emit (Print overwrite_notice) w)
  ∧ (∃ rest, trace (run {| old_path := old; new_path := None |} w).2
             = trace w ++ Print overwrite_notice :: rest)
  ∧ (∀ data_list, os_read (fs w) old "utf-8" = inr data_list →
       let written := os_write (fs w) old "utf-8" (deduplicate data_list) in
       let w' := (run {| old_path := old; new_path := None |} w).2 in
       fs w' = written.1
       ∧ trace w' =
           trace w
           ++ [Print overwrite_notice; Read old;
               Write old (deduplicate data_list)]
           ++ match written.2 with
              | None =>
                  [Print ("处理完成！去重后的文件已保存至: " +:+ old)]
              | Some _ => []
              end).
Proof.
  split_and!.
  - apply main_default.
  - rewrite main_default, main_explicit. simpl.
    destruct (os_read (fs w) old "utf-8") as [e | data_list]; simpl.
    + eexists. by rewrite <- app_assoc.
    + rewrite write_file_unfold. simpl.
      destruct (os_write (fs w) old "utf-8" (deduplicate data_list)).2;
        simpl; eexists; by rewrite <- !app_assoc.
  - intros data_list Hread. cbv zeta.
    rewrite main_default, main_explicit. simpl. rewrite Hread.
    rewrite write_file_unfold. simpl.
    destruct (os_write (fs w) old "utf-8" (deduplicate data_list)).2;
      simpl; by rewrite <- !app_assoc.
Qed.

(** C9.  When reading the source raises, [main] ends with that exception
    right after the attempt to read: the files are as they were and no
    write has been attempted. *)
Theorem read_failure_aborts args (w : world FS) e :
  os_read (fs w) (old_path args) "utf-8" = inl e →
  (run args w).1 = Raise e
  ∧ fs (run args w).2 = fs w
  ∧ trace (run args w).2 =
      trace w
      ++ match new_path args with
         | None => [Print overwrite_notice]
         | Some _ => []
         end
      ++ [Read (old_path args)]
  ∧ (∀ file_path data_list,
       Write file_path data_list ∈ trace (run args w).2 →
       Write file_path data_list ∈ trace w).
Proof.
  intros Hread. destruct args as [old [new |]].
  - rewrite main_explicit. simpl in *. rewrite Hread. simpl.
    split_and!; [done.. |].
    intros p ls [? | Hin%list_elem_of_singleton]%elem_of_app; done.
  - rewrite main_default, main_explicit. simpl in *. rewrite Hread. simpl.
    split_and!; [done | done | by rewrite <- app_assoc |].
    intros p ls [[? | Hin%list_elem_of_singleton]%elem_of_app
                | Hin%list_elem_of_singleton]%elem_of_app; done.
Qed.

End Main.

(** ** The theorems at concrete inputs *)

Example main_in_place_run :
  fs (main MemFS.read MemFS.write
        {| old_path := "tabs.txt"; new_path := None |}
        {| fs := Samples.files; trace := [] |}).2 !! "tabs.txt"
  = Some (ln "https://a.com | A" ++ ln "https://b.com | B" ++ ln "").
Proof. by vm_compute. Qed.

Lemma first_occurrence_rule_witness :
  kept Samples.bookmarks 1 = true ∧ kept Samples.bookmarks 4 = false.
Proof.
  destruct (first_occurrence_rule Samples.bookmarks 1 (ln "https://b.com | B"))
    as (_ & Hkept & Hlater & _).
  - reflexivity.
  - apply (bool_decide_unpack _). by vm_compute.
  - intros j d Hj Hd _. destruct j as [|j]; [| lia].
    injection Hd as <-. by vm_compute.
  - split; [exact Hkept |].
    apply (Hlater 4 (ln "https://b.com | B dup")); [lia | reflexivity | |].
    + apply (bool_decide_unpack _). by vm_compute.
    + by vm_compute.
Defined.

Lemma blank_line_kept_witness :
  kept Samples.bookmarks 3 = true.
Proof.
  apply (blank_line_kept Samples.bookmarks 3 (ln "")).
  - reflexivity.
  - by vm_compute.
Defined.

Lemma url_only_line_witness :
  url_key (ln "  https://a.com/x  ") = py "https://a.com/x"
  ∧ kept Samples.untitled 2 = false.
Proof.
  destruct (url_only_line (ln "https://a.com/x")) as (_ & _ & Hdup).
  - apply (bool_decide_unpack _). by vm_compute.
  - apply (bool_decide_unpack _). by vm_compute.
  - split.
    + apply (url_only_line (ln "  https://a.com/x  ")).
      * apply (bool_decide_unpack _). by vm_compute.
      * apply (bool_decide_unpack _). by vm_compute.
    + apply (Hdup Samples.untitled 0 2 (ln "  https://a.com/x  "));
        [lia | reflexivity | reflexivity | | | by vm_compute].
      * apply (bool_decide_unpack _). by vm_compute.
      * apply (bool_decide_unpack _). by vm_compute.
Defined.

Lemma empty_key_collapse_witness :
  kept Samples.no_url 1 = true
  ∧ kept Samples.no_url 2 = false
  ∧ kept Samples.no_url 3 = false
  ∧ deduplicate Samples.no_url
    = select_from (kept Samples.no_url) 0 Samples.no_url
  ∧ (∃ rest,
       deduplicate Samples.no_url
       = deduplicate (take 1 Samples.no_url) ++ ln "   | Title" :: rest
       ∧ ∀ d, d ∈ rest → ¬ blank_before_pipe d).
Proof.
  destruct (empty_key_collapse Samples.no_url 1 (ln "   | Title"))
    as (_ & _ & Hkept & Hlater & _ & Hsel & Hrest).
  - reflexivity.
  - apply (bool_decide_unpack _). by vm_compute.
  - intros j d Hj Hd. destruct j as [|j]; [| lia].
    injection Hd as <-. apply (bool_decide_unpack _). by vm_compute.
  - split_and!; [exact Hkept | | | exact Hsel | exact Hrest].
    + apply (Hlater 2 (ln " | Other")); [lia | reflexivity |].
      apply (bool_decide_unpack _). by vm_compute.
    + apply (Hlater 3 (ln "|")); [lia | reflexivity |].
      apply (bool_decide_unpack _). by vm_compute.
Defined.

Lemma read_failure_aborts_witness :
  (main MemFS.read MemFS.write
     {| old_path := "missing.txt"; new_path := Some "tabs.txt" |}
     {| fs := Samples.files; trace := [] |}).1
  = Raise FileNotFoundError
  ∧ fs (main MemFS.read MemFS.write
          {| old_path := "missing.txt"; new_path := Some "tabs.txt" |}
          {| fs := Samples.files; trace := [] |}).2
    = Samples.files.
Proof.
  destruct (read_failure_aborts MemFS.read MemFS.write
              {| old_path := "missing.txt"; new_path := Some "tabs.txt" |}
              {| fs := Samples.files; trace := [] |}
              FileNotFoundError) as (Hraise & Hfs & _).
  - by vm_compute.
  - split; [exact Hraise | exact Hfs].
Defined.

(** ** More on [strip], [split] and the key *)

Section StripFacts.
Implicit Types (c : char) (s t u ws : str).

Local Abbreviation spaces ws := (Forall (λ c, isspace c = true) ws).

Lemma lstrip_nil_spaces s : spaces s → lstrip s = [].
Proof. intros Hs. rewrite <- (app_nil_r s). by rewrite lstrip_spaces. Qed.

Lemma lstrip_app_l s t : lstrip s ≠ [] → lstrip (s ++ t) = lstrip s ++ t.
Proof.
  intros Hne. destruct (lstrip_decomp s) as (ws & Hs & Hws).
  destruct (lstrip s) as [|c u] eqn:E; [done |].
  pose proof (lstrip_head _ _ _ E) as Hc.
  rewrite Hs at 1. rewrite <- app_assoc, lstrip_spaces by done.
  simpl. by rewrite Hc.
Qed.

Lemma rstrip_spaces s ws : spaces ws → rstrip (s ++ ws) = rstrip s.
Proof.
  intros Hws. unfold rstrip. rewrite reverse_app.
  by rewrite lstrip_spaces by by apply Forall_reverse.
Qed.

Lemma rstrip_app_nonspace s c t :
  isspace c = false → rstrip (s ++ c :: t) = s ++ c :: rstrip t.
Proof.
  intros Hc. unfold rstrip.
  rewrite reverse_app, reverse_cons, <- app_assoc. simpl.
  rewrite lstrip_app_nonspace by done.
  rewrite reverse_app, reverse_cons, reverse_involutive.
  by rewrite <- app_assoc.
Qed.

Lemma rstrip_decomp s : ∃ ws, s = rstrip s ++ ws ∧ spaces ws.
Proof.
  destruct (lstrip_decomp (reverse s)) as (ws & Hs & Hws).
  exists (reverse ws). split; [| by apply Forall_reverse].
  unfold rstrip. rewrite <- reverse_app, <- Hs.
  by rewrite reverse_involutive.
Qed.

Lemma rstrip_last s c : last (rstrip s) = Some c → isspace c = false.
Proof.
  unfold rstrip. rewrite last_reverse.
  destruct (lstrip (reverse s)) as [|x u] eqn:E; [done |].
  intros [= <-]. by apply (lstrip_head _ _ _ E).
Qed.

Lemma strip_surrounded ws1 s ws2 :
  spaces ws1 → spaces ws2 → strip (ws1 ++ s ++ ws2) = strip s.
Proof.
  intros H1 H2. unfold strip. rewrite lstrip_spaces by done.
  destruct (lstrip s) as [|c u] eqn:E.
  - destruct (lstrip_decomp s) as (ws & Hs & Hws).
    rewrite E, app_nil_r in Hs. subst ws.
    rewrite lstrip_nil_spaces; [done |]. by apply Forall_app.
  - rewrite lstrip_app_l by by rewrite E. rewrite E.
    by rewrite rstrip_spaces.
Qed.

Lemma before_first_nosep sep s : sep ∉ before_first sep s.
Proof.
  induction s as [|c s IH]; simpl; [by intros ?%elem_of_nil |].
  destruct (N.eqb_spec c sep) as [-> | Hne]; [by intros ?%elem_of_nil |].
  intros [? | ?]%elem_of_cons; [congruence | done].
Qed.

(** [strip] takes a run of whitespace off each end and nothing else:
    the string is its stripped form between two runs of whitespace, and the
    stripped form neither starts nor ends with whitespace. *)
Theorem strip_characterisation s :
  (∃ ws1 ws2, s = ws1 ++ strip s ++ ws2 ∧ spaces ws1 ∧ spaces ws2)
  ∧ (∀ c, head (strip s) = Some c → isspace c = false)
  ∧ (∀ c, last (strip s) = Some c → isspace c = false).
Proof.
  split_and!.
  - destruct (lstrip_decomp s) as (ws1 & Hs & H1).
    destruct (rstrip_decomp (lstrip s)) as (ws2 & Hl & H2).
    exists ws1, ws2. split_and!; [| done..].
    unfold strip. by rewrite <- Hl.
  - intros c Hc. destruct (strip s) as [|x u] eqn:E; [done |].
    injection Hc as <-. by apply (strip_head _ _ _ E).
  - intros c. apply rstrip_last.
Qed.

(** X1.  Whitespace around a line changes neither its key nor whether it is
    blank; in particular a line has the same key with and without its line
    terminator. *)
Theorem url_key_ignores_outer_space ws1 data ws2 :
  spaces ws1 → spaces ws2 →
  url_key (ws1 ++ data ++ ws2) = url_key data
  ∧ (blank (ws1 ++ data ++ ws2) ↔ blank data)
  ∧ url_key (data ++ [LF]) = url_key data.
Proof.
  intros H1 H2. unfold url_key, blank.
  rewrite strip_surrounded by done. split_and!; [done | done |].
  rewrite <- (strip_surrounded [] data [LF]); [done | constructor |].
  by repeat constructor.
Qed.

(** X2.  A line written as a URL, a ['|'] and a title has the stripped URL as
    its key, whatever the title is. *)
Theorem url_key_titled u t :
  pipe ∉ u → url_key (u ++ pipe :: t) = strip u.
Proof.
  intros Hu. rewrite url_key_before_first. unfold strip at 2.
  rewrite lstrip_app_nonspace by apply pipe_nonspace.
  rewrite rstrip_app_nonspace by apply pipe_nonspace.
  rewrite before_first_app by (intros ?%lstrip_elem; done).
  unfold strip. by rewrite lstrip_idemp.
Qed.

(** X3.  The key is in normal form: it has no whitespace left to strip, it
    holds no ['|'], and stripping the line first does not change it. *)
Theorem url_key_normal data :
  strip (url_key data) = url_key data
  ∧ (pipe ∉ url_key data)
  ∧ url_key (strip data) = url_key data.
Proof.
  split_and!.
  - rewrite url_key_before_first. apply strip_idemp.
  - rewrite url_key_before_first. intros Hin%strip_elem.
    by apply before_first_nosep in Hin.
  - unfold url_key. by rewrite strip_idemp.
Qed.

(** [split(sep, 1)] gives the whole string as its only part when the
    separator does not occur, and otherwise cuts at the first separator
    only, into the part before it and everything after it. *)
Theorem split_once sep :
  (∀ s, sep ∉ s → split sep 1 s = [s])
  ∧ (∀ s t, sep ∉ s → split sep 1 (s ++ sep :: t) = [s; t]).
Proof.
  split.
  - intros s. induction s as [|c s IH]; simpl; [done |].
    intros [Hne Hs]%not_elem_of_cons.
    destruct (N.eqb_spec c sep); [congruence |]. by rewrite IH.
  - intros s t. induction s as [|c s IH]; simpl.
    + rewrite N.eqb_refl. by destruct t.
    + intros [Hne Hs]%not_elem_of_cons.
      destruct (N.eqb_spec c sep); [congruence |]. by rewrite IH.
Qed.

End StripFacts.

(** ** More on [deduplicate] *)

Section DeduplicateMore.
Implicit Types (S : gset str) (d data k : str) (l data_list : list str).

Local Abbreviation out S l := (output_list (resume S l)).
Local Abbreviation seen S l := (url_set (resume S l)).

Ltac resume_cases S d l :=
  destruct (resume_cases S d l)
    as [(? & ->) | [(? & ? & ->) | (? & ? & ->)]]; simpl.

(** The keys of the kept lines are the keys of the input that were not in
    the set at the start. *)
Lemma out_keys_iff S l k :
  k ∈ keys_of (out S l) ↔ k ∈ keys_of l ∧ k ∉ S.
Proof.
  destruct (out_keys S l) as (_ & Hnew & Hseen).
  pose proof (seen_spec S l k) as Hk. rewrite Hseen in Hk.
  rewrite elem_of_union, elem_of_list_to_set in Hk. split.
  - intros Hin. specialize (Hnew _ Hin). tauto.
  - intros [Hin Hout]. tauto.
Qed.

Lemma seen_out S l : seen S (out S l) = seen S l.
Proof.
  apply set_eq. intros k. rewrite !seen_spec, out_keys_iff. 
  destruct (decide (k ∈ S)); tauto.
Qed.

Lemma out_blank S l : filter blank (out S l) = filter blank l.
Proof.
  revert S. induction l as [|d l IH]; intros S; [done |].
  resume_cases S d l.
  - rewrite !filter_cons_True by done. by rewrite IH.
  - rewrite filter_cons_False by done. apply IH.
  - rewrite !filter_cons_False by done. apply IH.
Qed.

Lemma out_fresh S l :
  NoDup (keys_of l) → (∀ k, k ∈ keys_of l → k ∉ S) → out S l = l.
Proof.
  revert S. induction l as [|d l IH]; intros S Hnd Hnew; [done |].
  resume_cases S d l.
  - rewrite keys_of_cons_blank in Hnd, Hnew by done. by rewrite IH.
  - rewrite keys_of_cons_nonblank in Hnew by done.
    destruct (Hnew (url_key d)); [by left | done].
  - rewrite keys_of_cons_nonblank in Hnd, Hnew by done.
    apply NoDup_cons in Hnd as [Hnotin Hnd]. rewrite IH; [done.. |].
    intros k Hk [->%elem_of_singleton | Hin]%elem_of_union; [done |].
    apply (Hnew k); [by right | done].
Qed.

Lemma out_all_seen S l :
  (∀ k, k ∈ keys_of l → k ∈ S) →
  out S l = filter blank l ∧ seen S l = S.
Proof.
  induction l as [|d l IH]; intros Hseen; [done |].
  resume_cases S d l.
  - rewrite keys_of_cons_blank in Hseen by done.
    rewrite filter_cons_True by done. destruct (IH Hseen) as [-> ->]. done.
  - rewrite keys_of_cons_nonblank in Hseen by done.
    rewrite filter_cons_False by done. apply IH.
    intros k Hk. apply Hseen. by right.
  - rewrite keys_of_cons_nonblank in Hseen by done.
    exfalso. match goal with H : _ ∉ S |- _ => apply H end.
    apply Hseen. by left.
Qed.

Lemma length_filter_split {A : Type} (P : A → Prop)
    `{!∀ x, Decision (P x)} (xs : list A) :
  length xs = length (filter P xs) + length (filter (λ x, ¬ P x) xs).
Proof.
  induction xs as [|x xs IH]; [done |].
  destruct (decide (P x)).
  - rewrite filter_cons_True, (filter_cons_False (λ x, ¬ P x)) by auto.
    simpl. lia.
  - rewrite filter_cons_False, (filter_cons_True (λ x, ¬ P x)) by auto.
    simpl. lia.
Qed.

(** X4.  No key is lost and none is invented: a key is on a non-blank line
    of the output exactly when it is on a non-blank line of the input. *)
Theorem deduplicate_keeps_every_key data_list k :
  k ∈ keys_of (deduplicate data_list) ↔ k ∈ keys_of data_list.
Proof.
  rewrite deduplicate_resume, out_keys_iff. set_solver.
Qed.

(** X5.  The blank lines of the output are all the blank lines of the
    input, in the same order. *)
Theorem deduplicate_blank_lines data_list :
  filter blank (deduplicate data_list) = filter blank data_list.
Proof. apply out_blank. Qed.

(** X6.  The output has one line for each blank line of the input and one
    for each distinct key on its non-blank lines. *)
Theorem deduplicate_length data_list :
  length (deduplicate data_list)
  = length (filter blank data_list)
    + size (list_to_set (keys_of data_list) : gset str).
Proof.
  rewrite (length_filter_split blank (deduplicate data_list)).
  pose proof (out_blank ∅ data_list) as Hb.
  rewrite <- deduplicate_resume in Hb. rewrite Hb. f_equal.
  destruct (out_keys ∅ data_list) as (Hnd & _ & _).
  rewrite <- deduplicate_resume in Hnd.
  replace (list_to_set (keys_of data_list) : gset str)
    with (list_to_set (keys_of (deduplicate data_list)) : gset str).
  - rewrite size_list_to_set by done. unfold keys_of.
    by rewrite length_fmap.
  - apply set_eq. intros k. rewrite !elem_of_list_to_set.
    rewrite deduplicate_resume, out_keys_iff. set_solver.
Qed.

(** X7.  The input comes back unchanged exactly when no two of its
    non-blank lines have the same key. *)
Theorem deduplicate_fixed_point data_list :
  deduplicate data_list = data_list ↔ NoDup (keys_of data_list).
Proof.
  split.
  - intros Heq. destruct (out_keys ∅ data_list) as (Hnd & _ & _).
    rewrite <- deduplicate_resume in Hnd. by rewrite Heq in Hnd.
  - intros Hnd. rewrite deduplicate_resume. apply out_fresh; [done |].
    set_solver.
Qed.

(** X8.  Lines that follow do not change what was decided for the lines
    before them: the output for a prefix of the input is a prefix of the
    output for the whole input. *)
Theorem deduplicate_prefix l1 l2 :
  deduplicate l1 `prefix_of` deduplicate (l1 ++ l2).
Proof.
  rewrite !deduplicate_resume, resume_app. simpl.
  by eexists.
Qed.

(** X9.  Lines appended after an input whose non-blank lines already
    carry all their keys contribute their blank lines only. *)
Theorem deduplicate_app_seen l1 l2 :
  (∀ k, k ∈ keys_of l2 → k ∈ keys_of l1) →
  deduplicate (l1 ++ l2) = deduplicate l1 ++ filter blank l2.
Proof.
  intros Hsub. rewrite !deduplicate_resume, resume_app. simpl.
  destruct (out_all_seen (seen ∅ l1) l2) as [-> _]; [| done].
  intros k Hk. apply seen_spec. right. auto.
Qed.

(** X10.  Deduplicating a first part on its own beforehand changes nothing:
    the output for the deduplicated first part followed by a second part is
    the output for the two parts together. *)
Theorem deduplicate_chunked l1 l2 :
  deduplicate (deduplicate l1 ++ l2) = deduplicate (l1 ++ l2).
Proof.
  rewrite !deduplicate_resume, !resume_app. simpl.
  by rewrite out_idemp, seen_out.
Qed.

Lemma out_union S T l :
  out (S ∪ T) l = filter (λ d, blank d ∨ url_key d ∉ S) (out T l).
Proof.
  revert T. induction l as [|d l IH]; intros T; [done |].
  resume_cases T d l.
  - resume_cases (S ∪ T) d l; [| done..].
    rewrite filter_cons_True by by left. by rewrite IH.
  - resume_cases (S ∪ T) d l; [done | apply IH | set_solver].
  - destruct (decide (url_key d ∈ S)) as [HS | HS].
    + resume_cases (S ∪ T) d l; [done | | set_solver].
      rewrite filter_cons_False by tauto. rewrite <- IH.
      by replace (S ∪ ({[url_key d]} ∪ T)) with (S ∪ T) by set_solver.
    + resume_cases (S ∪ T) d l; [done | set_solver |].
      rewrite filter_cons_True by by right. rewrite <- IH.
      by replace (S ∪ ({[url_key d]} ∪ T))
        with ({[url_key d]} ∪ (S ∪ T)) by set_solver.
Qed.

(** X11.  Two inputs one after the other: the output is the output for the
    first, followed by the output for the second without its non-blank
    lines whose key is already on a non-blank line of the first. *)
Theorem deduplicate_app l1 l2 :
  deduplicate (l1 ++ l2)
  = deduplicate l1
    ++ filter (λ d, blank d ∨ url_key d ∉ keys_of l1) (deduplicate l2).
Proof.
  rewrite !deduplicate_resume, resume_app. simpl. f_equal.
  replace (seen ∅ l1) with (seen ∅ l1 ∪ ∅) by set_solver.
  rewrite out_union. apply list_filter_iff. intros d.
  rewrite seen_spec. set_solver.
Qed.

End DeduplicateMore.

(** ** More on [read_file], [write_file] and [main] *)

Section MainMore.
Context {FS : Type}.
Variable os_read : FS → string → string → exn + list str.
Variable os_write : FS → string → string → list str → FS * option exn.

Local Abbreviation run args w := (main os_read os_write args w).
Local Abbreviation completed file_path :=
  (Print ("处理完成！去重后的文件已保存至: " +:+ file_path)).

(** Where [main] writes: [new_path], or [old_path] when it is left out. *)
Local Abbreviation target args :=
  (default (old_path args) (new_path args)).

(** [main] step by step. *)
Lemma main_run args (w : world FS) :
  run args w =
    let w0 := {| fs := fs w;
                 trace := trace w
                          ++ match new_path args with
                             | None => [Print overwrite_notice]
                             | Some _ => []
                             end |} in
    match os_read (fs w) (old_path args) "utf-8" with
    | inr data_list =>
        write_file os_write (deduplicate data_list) (target args) "utf-8"
          (emit (Read (old_path args)) w0)
    | inl e => (Raise e, emit (Read (old_path args)) w0)
    end.
Proof.
  destruct args as [old [new |]]; simpl.
  - rewrite main_explicit, app_nil_r. by destruct w.
  - by rewrite main_default, main_explicit.
Qed.

(** X12.  [read_file] returns the lines the file yields, all of them, in
    order and unchanged, or raises what reading raised; it reads the one
    path it is given and changes no file. *)
Theorem read_file_returns_lines file_path encoding (w : world FS) :
  (read_file os_read file_path encoding w).1
  = match os_read (fs w) file_path encoding with
    | inr file => Ok file
    | inl e => Raise e
    end
  ∧ fs (read_file os_read file_path encoding w).2 = fs w
  ∧ trace (read_file os_read file_path encoding w).2
    = trace w ++ [Read file_path].
Proof.
  rewrite read_file_unfold.
  by destruct (os_read (fs w) file_path encoding).
Qed.

(** X13.  [write_file] hands the lines it is given, as they are, to one
    write of [file_path]; it prints the completion message, which names
    [file_path], only when that write has succeeded, and otherwise ends with
    the exception of the write. *)
Theorem write_file_outcome data_list file_path encoding (w : world FS) :
  (write_file os_write data_list file_path encoding w).1
  = match (os_write (fs w) file_path encoding data_list).2 with
    | None => Ok tt
    | Some e => Raise e
    end
  ∧ fs (write_file os_write data_list file_path encoding w).2
    = (os_write (fs w) file_path encoding data_list).1
  ∧ trace (write_file os_write data_list file_path encoding w).2
    = trace w
      ++ Write file_path data_list
         :: match (os_write (fs w) file_path encoding data_list).2 with
            | None => [completed file_path]
            | Some _ => []
            end.
Proof.
  rewrite write_file_unfold. cbv zeta.
  destruct (os_write (fs w) file_path encoding data_list).2; simpl;
    [done |]. by rewrite <- app_assoc.
Qed.

(** X14.  With [new_path] given, [main] prints no notice: it starts by
    reading [old_path], and when that succeeds it writes the deduplicated
    lines to [new_path], not to [old_path]. *)
Theorem main_explicit_destination old new (w : world FS) :
  (∃ rest, trace (run {| old_path := old; new_path := Some new |} w).2
           = trace w ++ Read old :: rest)
  ∧ (∀ data_list, os_read (fs w) old "utf-8" = inr data_list →
       let written := os_write (fs w) new "utf-8" (deduplicate data_list) in
       let w' := (run {| old_path := old; new_path := Some new |} w).2 in
       fs w' = written.1
       ∧ trace w' =
           trace w
           ++ [Read old; Write new (deduplicate data_list)]
           ++ match written.2 with
              | None => [completed new]
              | Some _ => []
              end).
Proof.
  rewrite main_run. simpl. split.
  - destruct (os_read (fs w) old "utf-8") as [e | data_list]; simpl.
    + rewrite app_nil_r. by eexists.
    + rewrite write_file_unfold. simpl. rewrite app_nil_r.
      destruct (os_write (fs w) new "utf-8" (deduplicate data_list)).2;
        simpl; eexists; by rewrite <- !app_assoc.
  - intros data_list ->. rewrite write_file_unfold. simpl.
    rewrite app_nil_r.
    destruct (os_write (fs w) new "utf-8" (deduplicate data_list)).2;
      simpl; by rewrite <- !app_assoc.
Qed.

(** X15.  [main] succeeds exactly when the read and the write both
    succeed, and otherwise ends with the exception of the first of the two
    that fails; the completion message is the last thing it does, and it
    is printed exactly when [main] succeeds. *)
Theorem main_outcome args (w : world FS) :
  (run args w).1
  = match os_read (fs w) (old_path args) "utf-8" with
    | inl e => Raise e
    | inr data_list =>
        match (os_write (fs w) (target args) "utf-8"
                 (deduplicate data_list)).2 with
        | Some e => Raise e
        | None => Ok tt
        end
    end
  ∧ ((run args w).1 = Ok tt
     ↔ last (trace (run args w).2) = Some (completed (target args))).
Proof.
  rewrite main_run. cbv zeta.
  destruct (os_read (fs w) (old_path args) "utf-8") as [e | data_list].
  - simpl. split; [done |]. rewrite last_snoc. by split.
  - rewrite write_file_unfold. simpl.
    destruct (os_write (fs w) (target args) "utf-8"
                (deduplicate data_list)).2; simpl.
    + split; [done |]. rewrite last_snoc. by split.
    + split; [done |]. rewrite last_snoc. by split.
Qed.

(** X16.  [main] writes nothing but the deduplicated lines of the source,
    and nowhere but to its destination: every write it adds to the trace is
    of [deduplicate] of the lines read from [old_path], to [new_path] or,
    when that is left out, to [old_path]. *)
Theorem main_writes_only_deduplicated args (w : world FS)
    file_path output_list :
  Write file_path output_list ∈ trace (run args w).2 →
  Write file_path output_list ∈ trace w
  ∨ (file_path = target args
     ∧ ∃ data_list,
         os_read (fs w) (old_path args) "utf-8" = inr data_list
         ∧ output_list = deduplicate data_list).
Proof.
  rewrite main_run. cbv zeta.
  assert (Hpre : ∀ ev,
    ev ∈ match new_path args with
         | None => [Print overwrite_notice]
         | Some _ => []
         end → ev = Print overwrite_notice).
  { intros ev. destruct (new_path args).
    - by intros ?%elem_of_nil.
    - by intros ?%list_elem_of_singleton. }
  destruct (os_read (fs w) (old_path args) "utf-8") as [e | data_list].
  - simpl. rewrite !elem_of_app, list_elem_of_singleton.
    intros [[? | ?%Hpre] | ?]; [by left | done | done].
  - rewrite write_file_unfold. cbv zeta. simpl.
    assert (Hin : Write file_path output_list
                  ∈ ((trace w
                      ++ match new_path args with
                         | None => [Print overwrite_notice]
                         | Some _ => []
                         end)
                     ++ [Read (old_path args)])
                    ++ [Write (target args) (deduplicate data_list)] →
            Write file_path output_list ∈ trace w
            ∨ file_path = target args
              ∧ ∃ data_list0,
                  (inr data_list : exn + list str) = inr data_list0
                  ∧ output_list = deduplicate data_list0).
    { rewrite !elem_of_app, !list_elem_of_singleton.
      intros [[[? | ?%Hpre] | ?] | Heq]; [by left | done | done |].
      right. injection Heq as -> ->. split; [done |]. by exists data_list. }
    destruct (os_write _ _ _ _).2; simpl.
    + exact Hin.
    + rewrite elem_of_app, list_elem_of_singleton.
      intros [H | ?]; [by apply Hin | done].
Qed.

End MainMore.

(** ** The further theorems at concrete inputs *)

Lemma url_key_ignores_outer_space_witness :
  url_key (py "  " ++ py "https://a.com | A" ++ ln " ")
  = url_key (py "https://a.com | A").
Proof.
  apply (url_key_ignores_outer_space (py "  ") (py "https://a.com | A")
           (ln " ")).
  - by repeat constructor.
  - by repeat constructor.
Defined.

Lemma url_key_titled_witness :
  url_key (py "https://a.com/x " ++ pipe :: py " Title | extra")
  = py "https://a.com/x".
Proof.
  apply (url_key_titled (py "https://a.com/x ") (py " Title | extra")).
  apply (bool_decide_unpack _). by vm_compute.
Defined.

Lemma deduplicate_app_seen_witness :
  deduplicate (Samples.bookmarks ++ Samples.bookmarks)
  = deduplicate Samples.bookmarks ++ [ln ""].
Proof.
  apply (deduplicate_app_seen Samples.bookmarks Samples.bookmarks).
  intros k Hk. exact Hk.
Defined.

Lemma main_writes_only_deduplicated_witness :
  Write "tabs.txt" (deduplicate Samples.bookmarks) ∈ []
  ∨ ("tabs.txt" = "tabs.txt"
     ∧ ∃ data_list,
         MemFS.read Samples.files "tabs.txt" "utf-8" = inr data_list
         ∧ deduplicate Samples.bookmarks = deduplicate data_list).
Proof.
  apply (main_writes_only_deduplicated MemFS.read MemFS.write
           {| old_path := "tabs.txt"; new_path := None |}
           {| fs := Samples.files; trace := [] |}
           "tabs.txt" (deduplicate Samples.bookmarks)).
  apply list_elem_of_lookup. exists 2. by vm_compute.
Defined.
